(** * strong-types: a shallow embedding of [include/strong.hpp]

    The header defines a wrapper [strong::type<TypeName, Type>] around one
    value of an underlying representation [Type], and a family of mixins in
    [strong::op] that give a concrete strong type its operators, each written
    in terms of the accessor [get] and of the representation's own operators.

    The representation is a template parameter, so the embedding is generic
    in it: every operator the header applies to a [Type] value is a field of
    an interface below. Operators that take [TypeName const &] or
    [TypeName &] are modelled over a memory of objects, references being
    addresses, so that in-place mutation, aliasing and the identity of a
    returned reference can be stated. Copying or moving a representation
    value keeps the value. *)

From stdpp Require Import base option gmap.
From Stdlib Require Import ZArith Lia.

Module strong.

(** ** What the templates ask of the underlying representation

    Arithmetic on the representation may have no defined result (overflow or
    a zero divisor on a built-in integer, an exception of a class type): such
    an operator returns [None]. The result of a binary operator is taken as
    a value of the representation, which is what the value constructor makes
    of it. The compound forms and the increments return the new value of
    their left operand. Each operator is a field of its own: the header
    relates none of them to another. *)

Class DefaultConstructible (T : Type) := rep_default : T.

Class EqualityComparable (T : Type) := rep_eq : T -> T -> bool.

Class Ordered (T : Type) := {
  rep_lt : T -> T -> bool;
  rep_gt : T -> T -> bool
}.

Class Addable (T : Type) := {
  rep_add : T -> T -> option T;
  rep_add_assign : T -> T -> option T
}.

Class Subtractable (T : Type) := {
  rep_sub : T -> T -> option T;
  rep_sub_assign : T -> T -> option T
}.

Class Multipliable (T : Type) := {
  rep_mul : T -> T -> option T;
  rep_mul_assign : T -> T -> option T
}.

Class Dividable (T : Type) := {
  rep_div : T -> T -> option T;
  rep_div_assign : T -> T -> option T
}.

Class Modular (T : Type) := rep_mod : T -> T -> option T.

Class Incrementable (T : Type) := rep_incr : T -> option T.

Class Decrementable (T : Type) := rep_decr : T -> option T.

(** The [Result] parameter of the comparison mixins (default [bool]): the
    representation's comparison converts to it, and [!] acts on it. *)
Class ResultType (Result : Type) := {
  from_bool : bool -> Result;
  lnot : Result -> Result
}.

#[export] Instance bool_result : ResultType bool :=
  {| from_bool := fun b => b; lnot := negb |}.

(** ** The wrapper [strong::type<TypeName, Type>]

    [TypeName] is the marker: it carries no data and only makes two wrappers
    over the same representation different types. *)

Record type (TypeName : Type) (T : Type) : Type := construct { value : T }.
Arguments construct {TypeName T} _.
Arguments value {TypeName T} _.

Section wrapper.
Context {TypeName T : Type}.

(** [constexpr type() : value()] *)
Definition default_construct `{!DefaultConstructible T} : type TypeName T :=
  construct rep_default.

(** [explicit constexpr type(Type const &v) : value(v)] *)
Definition copy_construct (v : T) : type TypeName T := construct v.

(** [explicit constexpr type(Type && v) : value(static_cast<Type &&>(v))] *)
Definition move_construct (v : T) : type TypeName T := construct v.

(** [explicit operator Type &()] and its const overload: both return
    [value]. *)
Definition operator_Type (this : type TypeName T) : T := value this.

(** [get(object)]: [static_cast<Type const &>(object)], read on an object. *)
Definition get (object : type TypeName T) : T := operator_Type object.

(** The write through the mutable overload, [get(object) = v]. *)
Definition set (object : type TypeName T) (v : T) : type TypeName T :=
  match object with construct _ => construct v end.
End wrapper.

(** ** Objects in memory

    A reference is the address of an object of the concrete strong type. A
    computation runs on a memory and either returns a result with the memory
    it leaves, or fails: on a reference to no object, or because the
    representation's operator had no result. *)

Abbreviation ref := nat.

Inductive failure := dangling_reference | representation_failure.

Inductive outcome (S A : Type) : Type :=
  | Done (a : A) (s : S)
  | Fail (f : failure).
Arguments Done {S A} a s.
Arguments Fail {S A} f.

Definition M (S A : Type) : Type := S -> outcome S A.

Definition ret {S A : Type} (a : A) : M S A := fun s => Done a s.

Definition bind {S A B : Type} (m : M S A) (k : A -> M S B) : M S B :=
  fun s => match m s with
           | Done a s' => k a s'
           | Fail f => Fail f
           end.

Notation "x <- m ;; k" := (bind m (fun x => k))
  (at level 100, m at next level, right associativity).
Notation "m ;;; k" := (bind m (fun _ => k))
  (at level 100, right associativity).

(** The result of a representation operator, or its failure. *)
Definition lift {S A : Type} (o : option A) : M S A :=
  fun s => match o with
           | Some a => Done a s
           | None => Fail representation_failure
           end.

(** What a computation returned, and the memory it left. *)
Definition returned {S A : Type} (o : outcome S A) : option A :=
  match o with Done a _ => Some a | Fail _ => None end.

Definition memory_after {S A : Type} (o : outcome S A) : option S :=
  match o with Done _ s => Some s | Fail _ => None end.

Section memory.
Context {TypeName T : Type}.

(** Read the object behind a reference. *)
Definition deref (object : ref) : M (gmap nat (type TypeName T)) (type TypeName T) :=
  fun s => match s !! object with
           | Some o => Done o s
           | None => Fail dangling_reference
           end.

(** [get(object)] used as a value, [object] being a reference. *)
Definition load (object : ref) : M (gmap nat (type TypeName T)) T :=
  o <- deref object ;; ret (get o).

(** [get(object) = v] through the mutable overload: the object is updated
    where it lives. *)
Definition store (object : ref) (v : T) : M (gmap nat (type TypeName T)) unit :=
  fun s => match s !! object with
           | Some o => Done tt (<[object := set o v]> s)
           | None => Fail dangling_reference
           end.

(** A declaration [TypeName object = init;]: the object starts to live at
    its address. *)
Definition declare (object : ref) (init : type TypeName T)
  : M (gmap nat (type TypeName T)) unit :=
  fun s => Done tt (<[object := init]> s).

(** The underlying value of [object] in the memory a computation left. *)
Definition underlying_after {A : Type} (object : ref)
    (o : outcome (gmap nat (type TypeName T)) A) : option T :=
  memory_after o ≫= fun s' => get <$> s' !! object.

(** A call that returns in the memory it started from, unless the
    representation's operator had no result. *)
Definition pure_call {A : Type}
    (o : outcome (gmap nat (type TypeName T)) A)
    (s : gmap nat (type TypeName T)) : Prop :=
  o = Fail representation_failure \/ exists x : A, o = Done x s.

(** A call that returns the reference [lhs], having changed no object but
    that one and in particular not [rhs], unless the representation's
    operator had no result. *)
Definition compound_call (o : outcome (gmap nat (type TypeName T)) ref)
    (s : gmap nat (type TypeName T)) (lhs rhs : ref) : Prop :=
  o = Fail representation_failure \/
  exists s', o = Done lhs s' /\ s' !! rhs = s !! rhs /\
             forall l : ref, l <> lhs -> s' !! l = s !! l.
End memory.

(** ** The mixins of [strong::op] *)

Module op.

Section equals.
Context {TypeName T Result : Type}.
Context `{!EqualityComparable T, !ResultType Result}.

(** [return get(lhs) == get(rhs);] *)
Definition operator_eq (lhs rhs : ref) : M (gmap nat (type TypeName T)) Result :=
  l <- load lhs ;; r <- load rhs ;; ret (from_bool (rep_eq l r)).

(** [return !(lhs == rhs);] *)
Definition operator_ne (lhs rhs : ref) : M (gmap nat (type TypeName T)) Result :=
  e <- operator_eq lhs rhs ;; ret (lnot e).
End equals.

Section orders.
Context {TypeName T Result : Type}.
Context `{!Ordered T, !ResultType Result}.

(** [return get(lhs) < get(rhs);] *)
Definition operator_lt (lhs rhs : ref) : M (gmap nat (type TypeName T)) Result :=
  l <- load lhs ;; r <- load rhs ;; ret (from_bool (rep_lt l r)).

(** [return !(rhs < lhs);] *)
Definition operator_le (lhs rhs : ref) : M (gmap nat (type TypeName T)) Result :=
  c <- operator_lt rhs lhs ;; ret (lnot c).

(** [return get(lhs) > get(rhs);] *)
Definition operator_gt (lhs rhs : ref) : M (gmap nat (type TypeName T)) Result :=
  l <- load lhs ;; r <- load rhs ;; ret (from_bool (rep_gt l r)).

(** [return !(rhs > lhs);] *)
Definition operator_ge (lhs rhs : ref) : M (gmap nat (type TypeName T)) Result :=
  c <- operator_gt rhs lhs ;; ret (lnot c).
End orders.

Section adds.
Context {TypeName T : Type} `{!Addable T}.

(** [return TypeName(get(lhs) + get(rhs));] *)
Definition operator_plus (lhs rhs : ref)
  : M (gmap nat (type TypeName T)) (type TypeName T) :=
  l <- load lhs ;; r <- load rhs ;; v <- lift (rep_add l r) ;;
  ret (move_construct v).

(** [get(lhs) += get(rhs); return lhs;] *)
Definition operator_plus_assign (lhs rhs : ref)
  : M (gmap nat (type TypeName T)) ref :=
  l <- load lhs ;; r <- load rhs ;; v <- lift (rep_add_assign l r) ;;
  store lhs v ;;; ret lhs.
End adds.

Section subtracts.
Context {TypeName T : Type} `{!Subtractable T}.

(** [return TypeName(get(lhs) - get(rhs));] *)
Definition operator_minus (lhs rhs : ref)
  : M (gmap nat (type TypeName T)) (type TypeName T) :=
  l <- load lhs ;; r <- load rhs ;; v <- lift (rep_sub l r) ;;
  ret (move_construct v).

(** [get(lhs) -= get(rhs); return lhs;] *)
Definition operator_minus_assign (lhs rhs : ref)
  : M (gmap nat (type TypeName T)) ref :=
  l <- load lhs ;; r <- load rhs ;; v <- lift (rep_sub_assign l r) ;;
  store lhs v ;;; ret lhs.
End subtracts.

Section multiplies.
Context {TypeName T : Type} `{!Multipliable T}.

(** [return TypeName(get(lhs) * get(rhs));] *)
Definition operator_times (lhs rhs : ref)
  : M (gmap nat (type TypeName T)) (type TypeName T) :=
  l <- load lhs ;; r <- load rhs ;; v <- lift (rep_mul l r) ;;
  ret (move_construct v).

(** [get(lhs) *= get(rhs); return lhs;] *)
Definition operator_times_assign (lhs rhs : ref)
  : M (gmap nat (type TypeName T)) ref :=
  l <- load lhs ;; r <- load rhs ;; v <- lift (rep_mul_assign l r) ;;
  store lhs v ;;; ret lhs.
End multiplies.

Section divides.
Context {TypeName T : Type} `{!Dividable T}.

(** [return TypeName(get(lhs) / get(rhs));] *)
Definition operator_div (lhs rhs : ref)
  : M (gmap nat (type TypeName T)) (type TypeName T) :=
  l <- load lhs ;; r <- load rhs ;; v <- lift (rep_div l r) ;;
  ret (move_construct v).

(** [get(lhs) /= get(rhs); return lhs;] *)
Definition operator_div_assign (lhs rhs : ref)
  : M (gmap nat (type TypeName T)) ref :=
  l <- load lhs ;; r <- load rhs ;; v <- lift (rep_div_assign l r) ;;
  store lhs v ;;; ret lhs.
End divides.

Section modulo.
Context {TypeName T : Type} `{!Modular T}.

(** [return TypeName(get(lhs) % get(rhs));], the only member of the
    class. *)
Definition operator_mod (lhs rhs : ref)
  : M (gmap nat (type TypeName T)) (type TypeName T) :=
  l <- load lhs ;; r <- load rhs ;; v <- lift (rep_mod l r) ;;
  ret (move_construct v).
End modulo.

Section increments.
Context {TypeName T : Type} `{!Incrementable T}.

(** [auto & object = static_cast<TypeName &>( *this); ++get(object);
    return object;] *)
Definition operator_preincrement (this : ref)
  : M (gmap nat (type TypeName T)) ref :=
  let object := this in
  x <- load object ;; v <- lift (rep_incr x) ;; store object v ;;;
  ret object.

(** [++( *this); auto & object = static_cast<TypeName &>( *this);
    return object;], the return type being [TypeName]: a copy. *)
Definition operator_postincrement (this : ref)
  : M (gmap nat (type TypeName T)) (type TypeName T) :=
  operator_preincrement this ;;;
  let object := this in
  deref object.
End increments.

Section decrements.
Context {TypeName T : Type} `{!Decrementable T}.

(** [auto & object = static_cast<TypeName &>( *this); --get(object);
    return object;] *)
Definition operator_predecrement (this : ref)
  : M (gmap nat (type TypeName T)) ref :=
  let object := this in
  x <- load object ;; v <- lift (rep_decr x) ;; store object v ;;;
  ret object.

(** [--( *this); auto & object = static_cast<TypeName &>( *this);
    return object;], the return type being [TypeName]: a copy. *)
Definition operator_postdecrement (this : ref)
  : M (gmap nat (type TypeName T)) (type TypeName T) :=
  operator_predecrement this ;;;
  let object := this in
  deref object.
End decrements.

(** The stream mixins, compiled under [STRONG_USE_STL_STREAMS]. A stream is
    passed to the operator and the stream it returns is the one the
    representation's own [<<] or [>>] left, whatever state that is in. The
    representation's [>>] also gives the value it left in its operand. *)

Class Printable (OStream T : Type) := rep_output : OStream -> T -> OStream.

Class Readable (IStream T : Type) := rep_input : IStream -> T -> IStream * T.

Section outputs.
Context {TypeName T OStream : Type} `{!Printable OStream T}.

(** [stream << get(value); return stream;] *)
Definition operator_output (stream : OStream) (value : ref)
  : M (gmap nat (type TypeName T)) OStream :=
  v <- load value ;; ret (rep_output stream v).
End outputs.

Section inputs.
Context {TypeName T IStream : Type} `{!Readable IStream T}.

(** [return stream >> get(value);] *)
Definition operator_input (stream : IStream) (value : ref)
  : M (gmap nat (type TypeName T)) IStream :=
  v <- load value ;;
  store value (snd (rep_input stream v)) ;;;
  ret (fst (rep_input stream v)).
End inputs.

(** ** Which operators a mixin declares

    A concrete strong type derives from [strong::type] and from the mixins it
    chooses; the operators it has are those its mixins declare. The symbols
    are those of the language; [sym_mod_assign] is [%=]. The classes
    [outputs] and [inputs] exist only under [STRONG_USE_STL_STREAMS]; their
    stream operators are listed here and not modelled further. *)

Inductive mixin :=
  | equals | orders | adds | subtracts | multiplies | divides | modulo
  | increments | decrements | outputs | inputs.

Inductive operator_symbol :=
  | sym_eq | sym_ne
  | sym_lt | sym_le | sym_gt | sym_ge
  | sym_plus | sym_plus_assign
  | sym_minus | sym_minus_assign
  | sym_times | sym_times_assign
  | sym_div | sym_div_assign
  | sym_mod | sym_mod_assign
  | sym_preincrement | sym_postincrement
  | sym_predecrement | sym_postdecrement
  | sym_output | sym_input.

Definition declares (m : mixin) : list operator_symbol :=
  match m with
  | equals => [sym_eq; sym_ne]
  | orders => [sym_lt; sym_le; sym_gt; sym_ge]
  | adds => [sym_plus; sym_plus_assign]
  | subtracts => [sym_minus; sym_minus_assign]
  | multiplies => [sym_times; sym_times_assign]
  | divides => [sym_div; sym_div_assign]
  | modulo => [sym_mod]
  | increments => [sym_preincrement; sym_postincrement]
  | decrements => [sym_predecrement; sym_postdecrement]
  | outputs => [sym_output]
  | inputs => [sym_input]
  end.

(** The operators of a concrete strong type with the given base mixins. *)
Definition operators (bases : list mixin) : list operator_symbol :=
  flat_map declares bases.

End op.

End strong.

Import strong strong.op.

(** ** Properties of a representation *)

Definition exactly_one (p q r : bool) : bool :=
  match p, q, r with
  | true, false, false | false, true, false | false, false, true => true
  | _, _, _ => false
  end.

(** The representation's [==] decides equality and its [<] is a strict total
    order. *)
Record total_order (T : Type) `{!EqualityComparable T, !Ordered T} : Prop := {
  eq_decides : forall x y : T, rep_eq x y = true <-> x = y;
  lt_irreflexive : forall x : T, rep_lt x x = false;
  lt_transitive : forall x y z : T,
    rep_lt x y = true -> rep_lt y z = true -> rep_lt x z = true;
  lt_total : forall x y : T, x <> y -> rep_lt x y = true \/ rep_lt y x = true
}.

(** The result type of the representation's binary operators.

    [get(lhs) + get(rhs)] has the type that the representation's [+] yields,
    which need not be [Type]: the operands of a built-in type narrower than
    [int] are promoted, and their sum is an [int]. [TypeName(...)] converts
    that result to [Type] for the parameter of the value constructor.
    [wide_add] is the operator itself, with its result in its own type [R];
    [narrow] is the conversion to [Type], and [promote] takes a [Type] value
    to [R], as the comparison [get(a + b) == get(a) + get(b)] does with its
    left side. *)
Class Promotes (T R : Type) := {
  promote : T -> R;
  narrow : R -> T;
  wide_add : T -> T -> option R;
  wide_sub : T -> T -> option R;
  wide_mul : T -> T -> option R;
  wide_div : T -> T -> option R
}.

(** An operator followed by the conversion of its result to [Type]. *)
Definition narrowed {T R : Type} `{!Promotes T R}
    (operator : T -> T -> option R) (x y : T) : option T :=
  narrow <$> operator x y.

(** [rep_add] and the like are the representation's operators followed by
    that conversion. *)
Record converts_results (T R : Type) `{!Promotes T R}
    `{!Addable T, !Subtractable T, !Multipliable T, !Dividable T} : Prop := {
  add_converts : forall x y : T, rep_add x y = narrowed wide_add x y;
  sub_converts : forall x y : T, rep_sub x y = narrowed wide_sub x y;
  mul_converts : forall x y : T, rep_mul x y = narrowed wide_mul x y;
  div_converts : forall x y : T, rep_div x y = narrowed wide_div x y
}.

(** The conversion to [Type] gives back the result it was applied to. *)
Definition kept {T R : Type} `{!Promotes T R} (result : option R) : Prop :=
  match result with
  | Some w => promote (narrow w) = w
  | None => True
  end.

(** A comparison that returned true. *)
Definition holds {S : Type} (o : outcome S bool) : Prop :=
  returned o = Some true.

(** ** Representations used to run the model

    The built-in [int] of the example program (32 bits): arithmetic whose
    mathematical result is out of range, and division by zero, have no
    defined result; [x op= y] stores [x op y]; [++x] is [x += 1]. *)

Module int.
Definition min : Z := - 2 ^ 31.
Definition max : Z := 2 ^ 31 - 1.

Definition checked (z : Z) : option Z :=
  if (min <=? z)%Z && (z <=? max)%Z then Some z else None.

Definition add (x y : Z) : option Z := checked (x + y).
Definition sub (x y : Z) : option Z := checked (x - y).
Definition mul (x y : Z) : option Z := checked (x * y).
Definition div (x y : Z) : option Z :=
  if (y =? 0)%Z then None else checked (Z.quot x y).
Definition rem (x y : Z) : option Z :=
  if (y =? 0)%Z then None
  else if (x =? min)%Z && (y =? -1)%Z then None
  else Some (Z.rem x y).
End int.

#[export] Instance int_default : DefaultConstructible Z := 0%Z.
#[export] Instance int_equality : EqualityComparable Z := Z.eqb.
#[export] Instance int_ordered : Ordered Z :=
  {| rep_lt := Z.ltb; rep_gt := Z.gtb |}.
#[export] Instance int_addable : Addable Z :=
  {| rep_add := int.add; rep_add_assign := int.add |}.
#[export] Instance int_subtractable : Subtractable Z :=
  {| rep_sub := int.sub; rep_sub_assign := int.sub |}.
#[export] Instance int_multipliable : Multipliable Z :=
  {| rep_mul := int.mul; rep_mul_assign := int.mul |}.
#[export] Instance int_dividable : Dividable Z :=
  {| rep_div := int.div; rep_div_assign := int.div |}.
#[export] Instance int_modular : Modular Z := int.rem.
#[export] Instance int_incrementable : Incrementable Z := fun x => int.add x 1.
#[export] Instance int_decrementable : Decrementable Z := fun x => int.sub x 1.

(** On [int] the operators yield an [int]: nothing is converted. *)
#[export] Instance int_promotes : Promotes Z Z :=
  {| promote := fun x => x; narrow := fun x => x;
     wide_add := int.add; wide_sub := int.sub;
     wide_mul := int.mul; wide_div := int.div |}.

(** The built-in [unsigned char] (8 bits): the operands are promoted to
    [int], the operator is that of [int], and the conversion of its result
    to [unsigned char] reduces it modulo 256. [x op= y] stores [x op y]
    converted. *)
Record unsigned_char := { code : Z }.

#[export] Instance unsigned_char_promotes : Promotes unsigned_char Z :=
  {| promote := code;
     narrow := fun z => {| code := z mod 256 |};
     wide_add := fun x y => int.add (code x) (code y);
     wide_sub := fun x y => int.sub (code x) (code y);
     wide_mul := fun x y => int.mul (code x) (code y);
     wide_div := fun x y => int.div (code x) (code y) |}.

#[export] Instance unsigned_char_addable : Addable unsigned_char :=
  {| rep_add := narrowed wide_add; rep_add_assign := narrowed wide_add |}.
#[export] Instance unsigned_char_subtractable : Subtractable unsigned_char :=
  {| rep_sub := narrowed wide_sub; rep_sub_assign := narrowed wide_sub |}.
#[export] Instance unsigned_char_multipliable : Multipliable unsigned_char :=
  {| rep_mul := narrowed wide_mul; rep_mul_assign := narrowed wide_mul |}.
#[export] Instance unsigned_char_dividable : Dividable unsigned_char :=
  {| rep_div := narrowed wide_div; rep_div_assign := narrowed wide_div |}.

(** A class type whose [+=] saturates at 100 while its [+] does not. *)
Record percent := { points : Z }.

#[export] Instance percent_addable : Addable percent :=
  {| rep_add := fun x y => Some {| points := points x + points y |};
     rep_add_assign :=
       fun x y => Some {| points := Z.min 100 (points x + points y) |} |}.

(** A class type whose [>] is written as the negation of its [<], so that
    [x > x] holds. *)
Record grade := { mark : Z }.

#[export] Instance grade_ordered : Ordered grade :=
  {| rep_lt := fun x y => (mark x <? mark y)%Z;
     rep_gt := fun x y => negb (mark x <? mark y)%Z |}.

(** ** The example program

    [cycle_count] of [examples/computer_architecture.cpp], a strong type over
    [int], and the objects of its [main]: each declaration or temporary gets
    the next address. The program returns what it computes for [cycles +
    more_cycles], [less_cycles] before and at its postfix increment, and
    [less_cycles] at the end. *)

Inductive cycle_count : Type := .

Definition main : M (gmap nat (type cycle_count Z)) (list Z) :=
  let cycles := 0 in
  let more_cycles := 1 in
  let even_more_cycles := 2 in
  let less_cycles := 3 in
  declare cycles (move_construct 50%Z) ;;;
  declare more_cycles (move_construct 60%Z) ;;;
  sum <- operator_plus cycles more_cycles ;;
  declare even_more_cycles sum ;;;
  difference <- operator_minus even_more_cycles cycles ;;
  declare less_cycles difference ;;;
  declare 4 (move_construct 4%Z) ;;;
  operator_plus_assign less_cycles 4 ;;;
  declare 5 (move_construct 3%Z) ;;;
  operator_minus_assign less_cycles 5 ;;;
  operator_preincrement less_cycles ;;;
  before_postfix <- load less_cycles ;;
  postfix <- operator_postincrement less_cycles ;;
  operator_predecrement less_cycles ;;;
  final <- load less_cycles ;;
  ret [get sum; before_postfix; get postfix; final].

(** Two [cycle_count] objects, 50 at address 0 and 60 at address 1. *)
Definition two_counts : gmap nat (type cycle_count Z) :=
  <[1 := copy_construct 60%Z]> (<[0 := copy_construct 50%Z]> ∅).

(** Two objects of a strong type over [percent], 70 and 50. *)
Inductive quota : Type := .

Definition two_quotas : gmap nat (type quota percent) :=
  <[1 := copy_construct {| points := 50 |}]>
    (<[0 := copy_construct {| points := 70 |}]> ∅).

(** Two objects of a strong type over [grade], both with mark 5. *)
Inductive score : Type := .

Definition two_scores : gmap nat (type score grade) :=
  <[1 := copy_construct {| mark := 5 |}]>
    (<[0 := copy_construct {| mark := 5 |}]> ∅).

(** Two objects of a strong type over [unsigned char], both 200. *)
Inductive channel : Type := .

Definition two_channels : gmap nat (type channel unsigned_char) :=
  <[1 := copy_construct {| code := 200 |}]>
    (<[0 := copy_construct {| code := 200 |}]> ∅).

(** Four [cycle_count] objects: 50, 60, 110 and again 50. *)
Definition four_counts : gmap nat (type cycle_count Z) :=
  <[3 := copy_construct 50%Z]> (<[2 := copy_construct 110%Z]> two_counts).

(** Streams used to run the stream mixins on [int]: an output stream is the
    list of the numbers written so far; an input stream is the list of the
    tokens still to read, [Some x] for the text of the number [x] and [None]
    for text that is no number, with its fail flag. A stream that has failed
    reads nothing. At the end of input the read fails before anything is
    extracted and the operand is left as it was. Text that is no number makes
    the read fail and stores zero. *)
#[export] Instance int_printable : Printable (list Z) Z :=
  fun stream v => stream ++ [v].

#[export] Instance int_readable : Readable (list (option Z) * bool) Z :=
  fun stream v =>
    match stream with
    | (_, true) => (stream, v)
    | ([], false) => (([], true), v)
    | (Some x :: rest, false) => ((rest, false), x)
    | (None :: rest, false) => ((None :: rest, true), 0%Z)
    end.

(** * Properties *)

Create HintDb strong_ops.
#[export] Hint Unfold
  operator_eq operator_ne operator_lt operator_le operator_gt operator_ge
  operator_plus operator_plus_assign operator_minus operator_minus_assign
  operator_times operator_times_assign operator_div operator_div_assign
  operator_mod operator_preincrement operator_postincrement
  operator_predecrement operator_postdecrement
  load store deref declare lift bind ret : strong_ops.

(** Run an operator on a memory whose live objects are known. *)
Ltac run :=
  autounfold with strong_ops;
  repeat match goal with
         | H : ?s !! ?a = Some _ |- context [?s !! ?a] => rewrite H
         | |- context [<[?a := ?x]> ?s !! ?a] => rewrite (lookup_insert_eq s a x)
         end;
  cbn [returned memory_after get set operator_Type value copy_construct
       move_construct].

(** Settle a call whose outcome hangs on one representation operator. *)
Ltac by_cases_on_rep :=
  match goal with
  | |- context [match ?o with Some _ => _ | None => _ end] =>
      destruct o; [run | by left]
  end.

Lemma set_construct {TypeName T : Type} (o : type TypeName T) (v : T) :
  set o v = construct v.
Proof. by destruct o. Qed.

Lemma int_total_order : total_order Z.
Proof.
  split; unfold rep_eq, rep_lt; cbn.
  - intros x y. apply Z.eqb_eq.
  - intros x. apply Z.ltb_irrefl.
  - intros x y z. rewrite !Z.ltb_lt. lia.
  - intros x y Hne. rewrite !Z.ltb_lt. lia.
Qed.

(** The program of the example computes 110, has 62 before the postfix
    increment, which returns 63, and prints 62 at the end. *)
Example main_run : returned (main ∅) = Some [110; 62; 63; 62]%Z.
Proof. reflexivity. Qed.

Section wrapper_facts.
Context {TypeName T : Type}.

(** C6. Construction followed by the accessor is the identity on the
    representation: for every value [v], [get] of the object constructed
    from [v] (by copy or by move) is [v], also when the object is declared
    in memory and read back through a reference. *)
Theorem construct_get_roundtrip (v : T) :
  get (copy_construct (TypeName := TypeName) v) = v /\
  get (move_construct (TypeName := TypeName) v) = v /\
  forall (s : gmap nat (type TypeName T)) (object : ref),
    returned ((declare object (copy_construct v) ;;; load object) s) = Some v.
Proof.
  split; [reflexivity | split; [reflexivity |]].
  intros s object. by run.
Qed.

(** C7. A default-constructed strong type converts to the default value of
    its representation: [type()] is a total constant, there is nothing to
    check and nothing that can fail. *)
Theorem default_construct_converts_to_default `{!DefaultConstructible T} :
  operator_Type (default_construct (TypeName := TypeName)) = rep_default /\
  get (default_construct (TypeName := TypeName)) = rep_default.
Proof. split; reflexivity. Qed.
End wrapper_facts.

(** For the built-in [int] the default value is zero. *)
Example int_default_is_zero :
  operator_Type (default_construct (TypeName := cycle_count) (T := Z)) = 0%Z.
Proof. reflexivity. Qed.

Section arithmetic_facts.
Context {TypeName T : Type}.
Implicit Types (s : gmap nat (type TypeName T)) (a b : ref).
Implicit Types (va vb : type TypeName T).

(** For [a] and [b] of one concrete strong type, [a + b] is an object of
    that same type whose underlying value is the representation's sum of the
    two underlying values taken to [Type], and [a + b] has no result exactly
    when that sum has none. The same holds of [-], [*] and [/]. *)
Lemma binary_operators_homomorphic
    `{!Addable T, !Subtractable T, !Multipliable T, !Dividable T}
    s a b va vb :
  s !! a = Some va -> s !! b = Some vb ->
  get <$> (returned (operator_plus a b s) : option (type TypeName T))
    = rep_add (get va) (get vb) /\
  get <$> (returned (operator_minus a b s) : option (type TypeName T))
    = rep_sub (get va) (get vb) /\
  get <$> (returned (operator_times a b s) : option (type TypeName T))
    = rep_mul (get va) (get vb) /\
  get <$> (returned (operator_div a b s) : option (type TypeName T))
    = rep_div (get va) (get vb).
Proof.
  intros Ha Hb. repeat split; run.
  - by destruct (rep_add _ _).
  - by destruct (rep_sub _ _).
  - by destruct (rep_mul _ _).
  - by destruct (rep_div _ _).
Qed.

(** C5. On an object whose underlying value is [v], the postfix increment
    stores the representation's own increment of [v] in the object, leaving
    memory as the prefix form does, and returns a copy of the object made
    after that mutation: the value returned is the incremented one, not [v].
    The postfix decrement does the same with the representation's
    decrement. *)
Theorem postfix_returns_mutated_value
    `{!Incrementable T, !Decrementable T} s a va :
  s !! a = Some va ->
  (operator_postincrement a s =
     match rep_incr (get va) with
     | Some v' => Done (construct v') (<[a := construct v']> s)
     | None => Fail representation_failure
     end /\
   memory_after (operator_postincrement a s)
     = memory_after (operator_preincrement a s)) /\
  (operator_postdecrement a s =
     match rep_decr (get va) with
     | Some v' => Done (construct v') (<[a := construct v']> s)
     | None => Fail representation_failure
     end /\
   memory_after (operator_postdecrement a s)
     = memory_after (operator_predecrement a s)).
Proof.
  intros Ha. split; split; run.
  - destruct (rep_incr _); [| done]. run. by rewrite set_construct.
  - destruct (rep_incr _); [| done]. by run.
  - destruct (rep_decr _); [| done]. run. by rewrite set_construct.
  - destruct (rep_decr _); [| done]. by run.
Qed.
End arithmetic_facts.

Lemma postfix_returns_mutated_value_witness :
  operator_postincrement 0 two_counts
    = Done (construct 51%Z) (<[0 := construct 51%Z]> two_counts) /\
  operator_postdecrement 0 two_counts
    = Done (construct 49%Z) (<[0 := construct 49%Z]> two_counts).
Proof.
  destruct (postfix_returns_mutated_value two_counts 0 (copy_construct 50%Z)
              eq_refl) as [[Hincrement _] [Hdecrement _]].
  exact (conj Hincrement Hdecrement).
Defined.

Lemma int_converts_results : converts_results Z Z.
Proof.
  split; intros x y; unfold narrowed; cbn;
    match goal with |- ?o = _ => by destruct o end.
Qed.

Section conversion_facts.
Context {TypeName T R : Type} `{!Promotes T R}.
Context `{!Addable T, !Subtractable T, !Multipliable T, !Dividable T}.
Implicit Types (s : gmap nat (type TypeName T)) (a b : ref).
Implicit Types (va vb : type TypeName T).

(** C2, as amended. For [a] and [b] of one concrete strong type, [a + b] is
    an object of that same type, and its underlying value is the result of
    the representation's [get(a) + get(b)] converted to the representation,
    as the value constructor takes it; [a + b] has no result exactly when
    the representation's sum has none. [get(a + b)] is [get(a) + get(b)]
    itself whenever that conversion gives back the sum, as it does when the
    representation's [+] yields the representation's own type. The same
    holds of [-], [*] and [/]. *)
Theorem binary_operators_convert_results s a b va vb :
  converts_results T R ->
  s !! a = Some va -> s !! b = Some vb ->
  (get <$> (returned (operator_plus a b s) : option (type TypeName T))
     = narrow <$> wide_add (get va) (get vb) /\
   (kept (wide_add (get va) (get vb)) ->
    promote <$> (get <$> returned (operator_plus a b s))
      = wide_add (get va) (get vb))) /\
  (get <$> (returned (operator_minus a b s) : option (type TypeName T))
     = narrow <$> wide_sub (get va) (get vb) /\
   (kept (wide_sub (get va) (get vb)) ->
    promote <$> (get <$> returned (operator_minus a b s))
      = wide_sub (get va) (get vb))) /\
  (get <$> (returned (operator_times a b s) : option (type TypeName T))
     = narrow <$> wide_mul (get va) (get vb) /\
   (kept (wide_mul (get va) (get vb)) ->
    promote <$> (get <$> returned (operator_times a b s))
      = wide_mul (get va) (get vb))) /\
  (get <$> (returned (operator_div a b s) : option (type TypeName T))
     = narrow <$> wide_div (get va) (get vb) /\
   (kept (wide_div (get va) (get vb)) ->
    promote <$> (get <$> returned (operator_div a b s))
      = wide_div (get va) (get vb))).
Proof.
  intros [Hadd Hsub Hmul Hdiv] Ha Hb.
  destruct (binary_operators_homomorphic s a b va vb Ha Hb)
    as (Hplus & Hminus & Htimes & Hquot).
  rewrite Hplus, Hminus, Htimes, Hquot, Hadd, Hsub, Hmul, Hdiv.
  unfold narrowed, kept.
  repeat split;
    match goal with
    | |- _ -> _ <$> (_ <$> ?o) = _ =>
        destruct o; cbn; [intros Hkept; by rewrite Hkept | done]
    end.
Qed.
End conversion_facts.

Lemma binary_operators_convert_results_witness :
  get <$> returned (operator_plus 0 1 two_counts) = Some 110%Z /\
  get <$> returned (operator_minus 0 1 two_counts) = Some (-10)%Z /\
  get <$> returned (operator_times 0 1 two_counts) = Some 3000%Z /\
  get <$> returned (operator_div 0 1 two_counts) = Some 0%Z /\
  promote <$> (get <$> returned (operator_plus 0 1 two_counts))
    = wide_add 50%Z 60%Z.
Proof.
  destruct (binary_operators_convert_results two_counts 0 1
              (copy_construct 50%Z) (copy_construct 60%Z)
              int_converts_results eq_refl eq_refl)
    as ((Hplus & Hsum) & (Hminus & _) & (Htimes & _) & (Hquot & _)).
  split; [exact Hplus | split; [exact Hminus | split; [exact Htimes |]]].
  split; [exact Hquot |].
  apply Hsum. reflexivity.
Defined.

(** C2 as stated fails on a representation narrower than [int]: with 200 in
    two objects over [unsigned char], [get(a) + get(b)] is the [int] 400,
    while [a + b] holds 144, which [==] promotes to the [int] 144. *)
Lemma narrowed_sum_differs_from_sum :
  wide_add (get (copy_construct (TypeName := channel) {| code := 200 |}))
           (get (copy_construct (TypeName := channel) {| code := 200 |}))
    = Some 400%Z /\
  get <$> returned (operator_plus 0 1 two_channels)
    = Some {| code := 144 |} /\
  promote <$> (get <$> returned (operator_plus 0 1 two_channels))
    <> wide_add {| code := 200 |} {| code := 200 |}.
Proof. split; [reflexivity | split; [reflexivity | discriminate]]. Qed.

Section compound_facts.
Context {TypeName T : Type} `{!Addable T}.
Implicit Types (s : gmap nat (type TypeName T)) (a b : ref).
Implicit Types (va vb : type TypeName T).

(** C3, as amended. [a += b] applies the representation's own [+=] to the
    two underlying values and stores the result in [a] where it lives, the
    rest of memory being kept, and the reference it returns is [a] itself.
    Reading [a] afterwards gives the underlying value of [a + b] computed
    beforehand whenever the representation's [+=] and [+] agree on the two
    values, as they do for the built-in arithmetic types. *)
Theorem plus_assign_in_place s a b va vb :
  s !! a = Some va -> s !! b = Some vb ->
  operator_plus_assign a b s =
    match rep_add_assign (get va) (get vb) with
    | Some v => Done a (<[a := construct v]> s)
    | None => Fail representation_failure
    end /\
  (rep_add_assign (get va) (get vb) = rep_add (get va) (get vb) ->
   underlying_after a (operator_plus_assign a b s)
     = get <$> returned (operator_plus a b s)).
Proof.
  intros Ha Hb. split.
  - run. destruct (rep_add_assign _ _); [| done]. run.
    by rewrite set_construct.
  - intros Hagree. unfold underlying_after. run. rewrite Hagree.
    destruct (rep_add _ _); [| done]. run. cbn.
    by rewrite lookup_insert_eq, set_construct.
Qed.
End compound_facts.

Lemma plus_assign_in_place_witness :
  operator_plus_assign 0 1 two_counts
    = Done 0 (<[0 := construct 110%Z]> two_counts) /\
  underlying_after 0 (operator_plus_assign 0 1 two_counts)
    = get <$> returned (operator_plus 0 1 two_counts).
Proof.
  destruct (plus_assign_in_place two_counts 0 1
              (copy_construct 50%Z) (copy_construct 60%Z) eq_refl eq_refl)
    as [Hstep Hsum].
  split; [exact Hstep | exact (Hsum eq_refl)].
Defined.

(** C3 as stated fails on a representation whose [+=] is not its [+]: with
    70 and 50 in two [percent] objects, [a + b] holds 120 while [a] holds 100
    after [a += b]. *)
Lemma plus_assign_differs_from_plus :
  get <$> returned (operator_plus 0 1 two_quotas) = Some {| points := 120 |} /\
  underlying_after 0 (operator_plus_assign 0 1 two_quotas)
    = Some {| points := 100 |} /\
  underlying_after 0 (operator_plus_assign 0 1 two_quotas)
    <> get <$> returned (operator_plus 0 1 two_quotas).
Proof. split; [reflexivity | split; [reflexivity | discriminate]]. Qed.

Section comparison_facts.
Context {TypeName T : Type}.
Implicit Types (s : gmap nat (type TypeName T)) (a b : ref).
Implicit Types (va vb : type TypeName T).

(** C4, as amended. Only [<] and [>] compare the underlying values; [a <= b]
    is the negation of [b < a], and [a >= b] is the negation of [b > a]:
    each derived operator negates the strict operator of its own direction
    with the operands exchanged. [a >= b] is the negation of [a < b]
    whenever the representation's [>] on the exchanged values is its [<],
    as it is for the built-in arithmetic types. *)
Theorem derived_orderings `{!Ordered T} s a b va vb :
  s !! a = Some va -> s !! b = Some vb ->
  returned (operator_lt a b s) = Some (rep_lt (get va) (get vb)) /\
  returned (operator_gt a b s) = Some (rep_gt (get va) (get vb)) /\
  returned (operator_le a b s) = negb <$> returned (operator_lt b a s) /\
  returned (operator_ge a b s) = negb <$> returned (operator_gt b a s) /\
  (rep_gt (get vb) (get va) = rep_lt (get va) (get vb) ->
   returned (operator_ge a b s) = negb <$> returned (operator_lt a b s)).
Proof.
  intros Ha Hb. repeat split; try (by run).
  intros Hconverse. run. cbn. by rewrite Hconverse.
Qed.

(** C8. When the representation's [==] and [<] form a total order, exactly
    one of [a < b], [a == b] and [b < a] holds of two objects of a strong
    type with the equality and ordering mixins. *)
Theorem trichotomy `{!EqualityComparable T, !Ordered T} s a b va vb :
  total_order T ->
  s !! a = Some va -> s !! b = Some vb ->
  exists less equal greater : bool,
    returned (operator_lt a b s) = Some less /\
    returned (operator_eq a b s) = Some equal /\
    returned (operator_lt b a s) = Some greater /\
    exactly_one less equal greater = true.
Proof.
  intros [Heq Hirr Htrans Htotal] Ha Hb.
  exists (rep_lt (get va) (get vb)), (rep_eq (get va) (get vb)),
         (rep_lt (get vb) (get va)).
  repeat split; try (by run).
  destruct (rep_eq (get va) (get vb)) eqn:E.
  - apply Heq in E. rewrite E, Hirr. reflexivity.
  - assert (get va <> get vb) as Hne.
    { intros Hsame. apply Heq in Hsame. congruence. }
    destruct (rep_lt (get va) (get vb)) eqn:L1,
             (rep_lt (get vb) (get va)) eqn:L2; try reflexivity.
    + pose proof (Htrans _ _ _ L1 L2) as Hcycle.
      rewrite Hirr in Hcycle. discriminate.
    + destruct (Htotal _ _ Hne); congruence.
Qed.
End comparison_facts.

Lemma derived_orderings_witness :
  returned (operator_lt 0 1 two_counts) = Some true /\
  returned (operator_gt 0 1 two_counts) = Some false /\
  returned (operator_le 0 1 two_counts)
    = negb <$> returned (operator_lt 1 0 two_counts) /\
  returned (operator_ge 0 1 two_counts)
    = negb <$> returned (operator_gt 1 0 two_counts) /\
  returned (operator_ge 0 1 two_counts)
    = negb <$> returned (operator_lt 0 1 two_counts).
Proof.
  destruct (derived_orderings two_counts 0 1
              (copy_construct 50%Z) (copy_construct 60%Z) eq_refl eq_refl)
    as (Hlt & Hgt & Hle & Hge & Hconverse).
  exact (conj Hlt (conj Hgt (conj Hle (conj Hge (Hconverse eq_refl))))).
Defined.

(** C4 as stated fails on a representation whose [>] is not the converse of
    its [<]: for two [grade] objects with the same mark, [a < b] is false and
    [a >= b] is false too. *)
Lemma ge_differs_from_negated_lt :
  returned (operator_lt 0 1 two_scores) = Some false /\
  returned (operator_ge 0 1 two_scores) = Some false /\
  returned (operator_ge 0 1 two_scores)
    <> negb <$> returned (operator_lt 0 1 two_scores).
Proof. split; [reflexivity | split; [reflexivity | discriminate]]. Qed.

Lemma trichotomy_witness :
  exists less equal greater : bool,
    returned (operator_lt 0 1 two_counts) = Some less /\
    returned (operator_eq 0 1 two_counts) = Some equal /\
    returned (operator_lt 1 0 two_counts) = Some greater /\
    exactly_one less equal greater = true.
Proof.
  exact (trichotomy two_counts 0 1 (copy_construct 50%Z) (copy_construct 60%Z)
           int_total_order eq_refl eq_refl).
Defined.

Section modulo_facts.
Context {TypeName T : Type} `{!Modular T}.
Implicit Types (s : gmap nat (type TypeName T)) (a b : ref).
Implicit Types (va vb : type TypeName T).

(** C9. [a % b] is a new object of the same strong type holding the
    representation's [get(a) % get(b)], memory being kept; it has no result
    exactly when the representation's [%] has none, the mixin checking
    nothing itself. The modulo mixin declares [%] alone, and whatever
    mixins a strong type is built from, it has no [%=]. *)
Theorem modulo_binary_only s a b va vb :
  s !! a = Some va -> s !! b = Some vb ->
  operator_mod a b s =
    match rep_mod (get va) (get vb) with
    | Some v => Done (construct v) s
    | None => Fail representation_failure
    end /\
  declares modulo = [sym_mod] /\
  forall bases : list mixin, sym_mod_assign ∉ operators bases.
Proof.
  intros Ha Hb. split; [| split; [reflexivity |]].
  - run. by destruct (rep_mod _ _).
  - intros bases Hin. unfold operators in Hin.
    apply list_elem_of_In, in_flat_map in Hin as (m & _ & Hm).
    destruct m; cbn in Hm; intuition discriminate.
Qed.
End modulo_facts.

Lemma modulo_binary_only_witness :
  operator_mod 0 1 two_counts = Done (construct 50%Z) two_counts /\
  declares modulo = [sym_mod] /\
  forall bases : list mixin, sym_mod_assign ∉ operators bases.
Proof.
  exact (modulo_binary_only two_counts 0 1
           (copy_construct 50%Z) (copy_construct 60%Z) eq_refl eq_refl).
Defined.

(** A zero divisor is not caught by the mixin: on [int] the outcome is that
    of the built-in [%]. *)
Example modulo_by_zero :
  operator_mod 0 1 (<[1 := copy_construct 0%Z]> two_counts)
    = Fail representation_failure.
Proof. reflexivity. Qed.

Section frame_facts.
Context {TypeName T Result : Type}.
Context `{!EqualityComparable T, !Ordered T, !ResultType Result}.
Context `{!Addable T, !Subtractable T, !Multipliable T, !Dividable T}.
Context `{!Modular T}.
Implicit Types (s : gmap nat (type TypeName T)) (a b : ref).
Implicit Types (va vb : type TypeName T).

(** C10. For distinct objects [a] and [b] of one strong type, every binary
    operator returns in the memory it was called in, so that both operands
    are as they were (the comparisons always return, the arithmetic
    operators unless the representation's operator has no result); every
    compound assignment leaves [b], and every object other than [a], as it
    was. *)
Theorem operators_frame s a b va vb :
  s !! a = Some va -> s !! b = Some vb -> a <> b ->
  (memory_after (operator_eq (Result := Result) a b s) = Some s /\
   memory_after (operator_ne (Result := Result) a b s) = Some s /\
   memory_after (operator_lt (Result := Result) a b s) = Some s /\
   memory_after (operator_le (Result := Result) a b s) = Some s /\
   memory_after (operator_gt (Result := Result) a b s) = Some s /\
   memory_after (operator_ge (Result := Result) a b s) = Some s) /\
  (pure_call (operator_plus a b s) s /\
   pure_call (operator_minus a b s) s /\
   pure_call (operator_times a b s) s /\
   pure_call (operator_div a b s) s /\
   pure_call (operator_mod a b s) s) /\
  (compound_call (operator_plus_assign a b s) s a b /\
   compound_call (operator_minus_assign a b s) s a b /\
   compound_call (operator_times_assign a b s) s a b /\
   compound_call (operator_div_assign a b s) s a b).
Proof.
  intros Ha Hb Hab.
  split; [by repeat split; run |].
  split.
  - unfold pure_call. repeat split; run; by_cases_on_rep; right; eauto.
  - unfold compound_call.
    repeat split; run; by_cases_on_rep; right; eexists;
      (split; [reflexivity |]);
      (split; [| intros l Hl]); by rewrite lookup_insert_ne.
Qed.
End frame_facts.

Lemma operators_frame_witness :
  memory_after (operator_lt (Result := bool) 0 1 two_counts) = Some two_counts /\
  pure_call (operator_plus 0 1 two_counts) two_counts /\
  compound_call (operator_plus_assign 0 1 two_counts) two_counts 0 1.
Proof.
  destruct (operators_frame (Result := bool) two_counts 0 1
              (copy_construct 50%Z) (copy_construct 60%Z) eq_refl eq_refl
              ltac:(discriminate))
    as ((_ & _ & Hlt & _) & (Hplus & _) & (Hassign & _)).
  exact (conj Hlt (conj Hplus Hassign)).
Defined.

(** * Further properties of the header *)

#[export] Hint Unfold operator_output operator_input : strong_ops.

Lemma holds_true {S : Type} (b : bool) (s : S) :
  holds (Done b s) <-> b = true.
Proof. unfold holds. cbn. split; [by intros [= ->] | by intros ->]. Qed.

Section other_compound_facts.
Context {TypeName T : Type}.
Context `{!Subtractable T, !Multipliable T, !Dividable T}.
Implicit Types (s : gmap nat (type TypeName T)) (a b : ref).
Implicit Types (va vb : type TypeName T).

(** X1. [a -= b], [a *= b] and [a /= b] store the result of the
    representation's compound operator in [a] where it lives and return the
    reference [a]; they have no result exactly when the representation's
    operator has none. What [a] holds afterwards is the underlying value of
    [a - b], [a * b] or [a / b] whenever the representation's compound and
    binary operators agree on the two values. *)
Theorem other_compound_assignments_in_place s a b va vb :
  s !! a = Some va -> s !! b = Some vb ->
  (operator_minus_assign a b s =
     match rep_sub_assign (get va) (get vb) with
     | Some v => Done a (<[a := construct v]> s)
     | None => Fail representation_failure
     end /\
   (rep_sub_assign (get va) (get vb) = rep_sub (get va) (get vb) ->
    underlying_after a (operator_minus_assign a b s)
      = get <$> returned (operator_minus a b s))) /\
  (operator_times_assign a b s =
     match rep_mul_assign (get va) (get vb) with
     | Some v => Done a (<[a := construct v]> s)
     | None => Fail representation_failure
     end /\
   (rep_mul_assign (get va) (get vb) = rep_mul (get va) (get vb) ->
    underlying_after a (operator_times_assign a b s)
      = get <$> returned (operator_times a b s))) /\
  (operator_div_assign a b s =
     match rep_div_assign (get va) (get vb) with
     | Some v => Done a (<[a := construct v]> s)
     | None => Fail representation_failure
     end /\
   (rep_div_assign (get va) (get vb) = rep_div (get va) (get vb) ->
    underlying_after a (operator_div_assign a b s)
      = get <$> returned (operator_div a b s))).
Proof.
  intros Ha Hb.
  split; [| split]; split;
    try (intros Hagree; unfold underlying_after; run; rewrite Hagree);
    try run;
    match goal with
    | |- context [match ?o with Some _ => _ | None => _ end] => destruct o
    end; try done; run; cbn;
    rewrite ?lookup_insert_eq, ?set_construct; done.
Qed.
End other_compound_facts.

Lemma other_compound_assignments_in_place_witness :
  operator_minus_assign 0 1 two_counts
    = Done 0 (<[0 := construct (-10)%Z]> two_counts) /\
  operator_times_assign 0 1 two_counts
    = Done 0 (<[0 := construct 3000%Z]> two_counts) /\
  operator_div_assign 0 1 two_counts
    = Done 0 (<[0 := construct 0%Z]> two_counts) /\
  underlying_after 0 (operator_div_assign 0 1 two_counts)
    = get <$> returned (operator_div 0 1 two_counts).
Proof.
  destruct (other_compound_assignments_in_place two_counts 0 1
              (copy_construct 50%Z) (copy_construct 60%Z) eq_refl eq_refl)
    as ((Hminus & _) & (Htimes & _) & (Hdiv & Hagree)).
  exact (conj Hminus (conj Htimes (conj Hdiv (Hagree eq_refl)))).
Defined.

Section prefix_facts.
Context {TypeName T : Type} `{!Incrementable T, !Decrementable T}.
Implicit Types (s : gmap nat (type TypeName T)) (a : ref).
Implicit Types (va : type TypeName T).

(** X2. The prefix forms return the reference they were called on, so they
    chain: [--(++a)] returns [a] and leaves memory exactly as it was whenever
    the representation's decrement undoes its increment at the value of [a],
    and so does [++(--a)] when its increment undoes its decrement there. *)
Theorem prefix_forms_undo_each_other s a va :
  s !! a = Some va ->
  (forall v', rep_incr (get va) = Some v' -> rep_decr v' = Some (get va) ->
     (r <- operator_preincrement a ;; operator_predecrement r) s = Done a s) /\
  (forall v', rep_decr (get va) = Some v' -> rep_incr v' = Some (get va) ->
     (r <- operator_predecrement a ;; operator_preincrement r) s = Done a s).
Proof.
  intros Ha.
  assert (<[a := va]> s = s) as Hsame by (by apply insert_id).
  destruct va as [v]. cbn [get operator_Type value].
  split; intros v' Hfirst Hsecond; run; rewrite Hfirst; run; rewrite Hsecond;
    run; by rewrite insert_insert_eq, Hsame.
Qed.
End prefix_facts.

Lemma prefix_forms_undo_each_other_witness :
  (r <- operator_preincrement 0 ;; operator_predecrement r) two_counts
    = Done 0 two_counts /\
  (r <- operator_predecrement 0 ;; operator_preincrement r) two_counts
    = Done 0 two_counts.
Proof.
  destruct (prefix_forms_undo_each_other two_counts 0 (copy_construct 50%Z)
              eq_refl) as [Hup Hdown].
  split.
  - apply (Hup 51%Z); reflexivity.
  - apply (Hdown 49%Z); reflexivity.
Defined.

Section chaining_facts.
Context {TypeName T : Type} `{!Addable T}.
Implicit Types (s : gmap nat (type TypeName T)) (a b c : ref).
Implicit Types (va vb vc : type TypeName T).

(** X3. The reference returned by [+=] can be assigned to again:
    [(a += b) += c] accumulates both right operands in [a], the second step
    starting from what the first stored. When [c] is [a] itself the second
    step reads the value the first step stored, so [(a += b) += a] adds the
    new value of [a] to itself. *)
Theorem plus_assign_chains s a b c va vb vc v1 v2 :
  s !! a = Some va -> s !! b = Some vb -> s !! c = Some vc ->
  rep_add_assign (get va) (get vb) = Some v1 ->
  (a <> c -> rep_add_assign v1 (get vc) = Some v2 ->
   (r <- operator_plus_assign a b ;; operator_plus_assign r c) s
     = Done a (<[a := construct v2]> s)) /\
  (rep_add_assign v1 v1 = Some v2 ->
   (r <- operator_plus_assign a b ;; operator_plus_assign r a) s
     = Done a (<[a := construct v2]> s)).
Proof.
  intros Ha Hb Hc Hfirst.
  destruct va as [x]. cbn [get operator_Type value] in *.
  split.
  - intros Hac Hsecond. run. rewrite Hfirst. run.
    rewrite (lookup_insert_ne s a c) by done. rewrite Hc. run.
    rewrite Hsecond. run.
    by rewrite insert_insert_eq.
  - intros Hsecond. run. rewrite Hfirst. run.
    rewrite Hsecond. run.
    by rewrite insert_insert_eq.
Qed.
End chaining_facts.

Lemma plus_assign_chains_witness :
  (r <- operator_plus_assign 0 1 ;; operator_plus_assign r 1) two_counts
    = Done 0 (<[0 := construct 170%Z]> two_counts) /\
  (r <- operator_plus_assign 0 1 ;; operator_plus_assign r 0) two_counts
    = Done 0 (<[0 := construct 220%Z]> two_counts).
Proof.
  destruct (@plus_assign_chains cycle_count Z int_addable two_counts 0 1 1
              (copy_construct 50%Z) (copy_construct 60%Z) (copy_construct 60%Z)
              110%Z 170%Z eq_refl eq_refl eq_refl ltac:(reflexivity))
    as [Hother _].
  destruct (@plus_assign_chains cycle_count Z int_addable two_counts 0 1 1
              (copy_construct 50%Z) (copy_construct 60%Z) (copy_construct 60%Z)
              110%Z 220%Z eq_refl eq_refl eq_refl ltac:(reflexivity))
    as [_ Hself].
  split.
  - apply Hother; [discriminate | reflexivity].
  - apply Hself. reflexivity.
Defined.

Section comparison_semantics.
Context {TypeName T : Type} `{!EqualityComparable T, !Ordered T}.
Implicit Types (s : gmap nat (type TypeName T)) (a b c : ref).
Implicit Types (va vb vc : type TypeName T).

Lemma holds_eq s a b va vb :
  s !! a = Some va -> s !! b = Some vb ->
  holds (operator_eq a b s) <-> rep_eq (get va) (get vb) = true.
Proof. intros Ha Hb. run. apply holds_true. Qed.

Lemma holds_lt s a b va vb :
  s !! a = Some va -> s !! b = Some vb ->
  holds (operator_lt a b s) <-> rep_lt (get va) (get vb) = true.
Proof. intros Ha Hb. run. apply holds_true. Qed.

Lemma holds_gt s a b va vb :
  s !! a = Some va -> s !! b = Some vb ->
  holds (operator_gt a b s) <-> rep_gt (get va) (get vb) = true.
Proof. intros Ha Hb. run. apply holds_true. Qed.

Lemma holds_le s a b va vb :
  s !! a = Some va -> s !! b = Some vb ->
  holds (operator_le a b s) <-> rep_lt (get vb) (get va) = false.
Proof.
  intros Ha Hb. run. rewrite holds_true. cbn.
  by destruct (rep_lt _ _).
Qed.

Lemma holds_ge s a b va vb :
  s !! a = Some va -> s !! b = Some vb ->
  holds (operator_ge a b s) <-> rep_gt (get vb) (get va) = false.
Proof.
  intros Ha Hb. run. rewrite holds_true. cbn.
  by destruct (rep_gt _ _).
Qed.

Lemma get_inj va vb : get va = get vb -> va = vb.
Proof. destruct va, vb. cbn. by intros ->. Qed.

(** Under a total order, [x < y] fails exactly when [y < x] or [y] is [x]. *)
Lemma not_lt_iff (x y : T) :
  total_order T ->
  rep_lt x y = false <-> rep_lt y x = true \/ y = x.
Proof.
  intros [Heq Hirr Htrans Htotal]. split.
  - intros Hnot. destruct (rep_eq y x) eqn:E.
    + right. by apply Heq.
    + left. assert (y <> x) as Hne.
      { intros Hsame. apply Heq in Hsame. congruence. }
      destruct (Htotal _ _ Hne) as [H | H]; [done | congruence].
  - intros [Hlt | ->]; [| apply Hirr].
    destruct (rep_lt x y) eqn:E; [| done].
    pose proof (Htrans _ _ _ E Hlt) as Hcycle.
    rewrite Hirr in Hcycle. discriminate.
Qed.

(** X4. When the representation's [==] decides equality of its values,
    [a == b] returns true exactly when the two objects are equal, and
    [a != b] returns true exactly when they differ. *)
Theorem equality_operators_decide s a b va vb :
  (forall x y : T, rep_eq x y = true <-> x = y) ->
  s !! a = Some va -> s !! b = Some vb ->
  (holds (operator_eq a b s) <-> va = vb) /\
  (holds (operator_ne a b s) <-> va <> vb).
Proof.
  intros Heq Ha Hb. split.
  - rewrite (holds_eq s a b va vb Ha Hb), Heq.
    split; [apply get_inj | by intros ->].
  - run. rewrite holds_true. cbn.
    destruct (rep_eq (get va) (get vb)) eqn:E.
    + apply Heq, get_inj in E. split; [done | by intros Hne].
    + split; [| done]. intros _ ->.
      assert (rep_eq (get vb) (get vb) = true) by (by apply Heq).
      congruence.
Qed.

(** X5. When the representation's comparison is a total order and its [>]
    is the converse of its [<], the four ordering operators agree with one
    another: [a <= b] holds exactly when [a < b] or [a == b] does, [a >= b]
    exactly when [a > b] or [a == b] does, [a > b] exactly when [b < a]
    does, and of [a <= b] and [b <= a] at least one holds. *)
Theorem ordering_operators_agree s a b va vb :
  total_order T ->
  (forall x y : T, rep_gt x y = rep_lt y x) ->
  s !! a = Some va -> s !! b = Some vb ->
  (holds (operator_le a b s)
     <-> holds (operator_lt a b s) \/ holds (operator_eq a b s)) /\
  (holds (operator_ge a b s)
     <-> holds (operator_gt a b s) \/ holds (operator_eq a b s)) /\
  (holds (operator_gt a b s) <-> holds (operator_lt b a s)) /\
  (holds (operator_le a b s) \/ holds (operator_le b a s)).
Proof.
  intros Horder Hconverse Ha Hb.
  pose proof (eq_decides T Horder) as Heq.
  rewrite (holds_le s a b va vb Ha Hb), (holds_le s b a vb va Hb Ha),
    (holds_ge s a b va vb Ha Hb), (holds_lt s a b va vb Ha Hb),
    (holds_lt s b a vb va Hb Ha), (holds_gt s a b va vb Ha Hb),
    (holds_eq s a b va vb Ha Hb), !Hconverse, Heq,
    !(fun x y => not_lt_iff x y Horder).
  repeat split; try tauto.
  - intros [H | H]; [by left | by right].
  - intros [H | H]; [by left | by right].
  - destruct (rep_eq (get va) (get vb)) eqn:E.
    + apply Heq in E. left. by right.
    + assert (get va <> get vb) as Hne.
      { intros Hsame. apply Heq in Hsame. congruence. }
      destruct (lt_total T Horder _ _ Hne); [left | right]; by left.
Qed.

(** X6. Under a total order of the representation, [<=] on a strong type is
    antisymmetric and transitive, and [<] is transitive. *)
Theorem ordering_operators_order s a b c va vb vc :
  total_order T ->
  s !! a = Some va -> s !! b = Some vb -> s !! c = Some vc ->
  (holds (operator_le a b s) -> holds (operator_le b a s) -> va = vb) /\
  (holds (operator_le a b s) -> holds (operator_le b c s) ->
   holds (operator_le a c s)) /\
  (holds (operator_lt a b s) -> holds (operator_lt b c s) ->
   holds (operator_lt a c s)).
Proof.
  intros Horder Ha Hb Hc.
  pose proof (lt_transitive T Horder) as Htrans.
  pose proof (lt_irreflexive T Horder) as Hirr.
  rewrite (holds_le s a b va vb Ha Hb), (holds_le s b a vb va Hb Ha),
    (holds_le s b c vb vc Hb Hc), (holds_le s a c va vc Ha Hc),
    (holds_lt s a b va vb Ha Hb), (holds_lt s b c vb vc Hb Hc),
    (holds_lt s a c va vc Ha Hc),
    !(fun x y => not_lt_iff x y Horder).
  split; [| split].
  - intros [Hab | Hab] [Hba | Hba]; try (by apply get_inj).
    pose proof (Htrans _ _ _ Hab Hba) as Hcycle.
    rewrite Hirr in Hcycle. discriminate.
  - intros [Hab | Hab] [Hbc | Hbc].
    + left. eapply Htrans; eauto.
    + left. by rewrite <- Hbc.
    + left. by rewrite Hab.
    + right. congruence.
  - apply Htrans.
Qed.
End comparison_semantics.

Lemma int_gt_converse (x y : Z) : rep_gt x y = rep_lt y x.
Proof. apply Z.gtb_ltb. Qed.

Lemma equality_operators_decide_witness :
  (holds (operator_eq 0 1 two_counts)
     <-> copy_construct (TypeName := cycle_count) 50%Z = copy_construct 60%Z) /\
  (holds (operator_ne 0 1 two_counts)
     <-> copy_construct (TypeName := cycle_count) 50%Z <> copy_construct 60%Z).
Proof.
  exact (equality_operators_decide two_counts 0 1
           (copy_construct 50%Z) (copy_construct 60%Z)
           (eq_decides Z int_total_order) eq_refl eq_refl).
Defined.

Lemma ordering_operators_agree_witness :
  (holds (operator_le 0 1 two_counts)
     <-> holds (operator_lt 0 1 two_counts) \/
         holds (operator_eq 0 1 two_counts)) /\
  (holds (operator_ge 0 1 two_counts)
     <-> holds (operator_gt 0 1 two_counts) \/
         holds (operator_eq 0 1 two_counts)) /\
  (holds (operator_gt 0 1 two_counts) <-> holds (operator_lt 1 0 two_counts)) /\
  (holds (operator_le 0 1 two_counts) \/ holds (operator_le 1 0 two_counts)).
Proof.
  exact (ordering_operators_agree two_counts 0 1
           (copy_construct 50%Z) (copy_construct 60%Z)
           int_total_order int_gt_converse eq_refl eq_refl).
Defined.

Lemma ordering_operators_order_witness :
  (copy_construct (TypeName := cycle_count) 50%Z = copy_construct 50%Z) /\
  holds (operator_le 0 2 four_counts) /\
  holds (operator_lt 0 2 four_counts).
Proof.
  destruct (ordering_operators_order four_counts 0 3 0
              (copy_construct 50%Z) (copy_construct 50%Z) (copy_construct 50%Z)
              int_total_order eq_refl eq_refl eq_refl) as (Hanti & _ & _).
  destruct (ordering_operators_order four_counts 0 1 2
              (copy_construct 50%Z) (copy_construct 60%Z) (copy_construct 110%Z)
              int_total_order eq_refl eq_refl eq_refl) as (_ & Hle & Hlt).
  split; [| split].
  - apply Hanti; reflexivity.
  - apply Hle; reflexivity.
  - apply Hlt; reflexivity.
Defined.

Section inverse_compound_facts.
Context {TypeName T : Type} `{!Addable T, !Subtractable T}.
Implicit Types (s : gmap nat (type TypeName T)) (a b : ref).
Implicit Types (va vb : type TypeName T).

(** X7. For two distinct objects, [a += b] followed by [a -= b] returns [a]
    and leaves memory exactly as it was whenever the representation's [-=]
    undoes its [+=] at the two values: the second step reads the value the
    first stored in [a], and [b] as it always was. *)
Theorem plus_assign_then_minus_assign s a b va vb v1 :
  s !! a = Some va -> s !! b = Some vb -> a <> b ->
  rep_add_assign (get va) (get vb) = Some v1 ->
  rep_sub_assign v1 (get vb) = Some (get va) ->
  (r <- operator_plus_assign a b ;; operator_minus_assign r b) s = Done a s.
Proof.
  intros Ha Hb Hab Hfirst Hsecond.
  assert (<[a := va]> s = s) as Hsame by (by apply insert_id).
  destruct va as [x]. cbn [get operator_Type value] in *.
  run. rewrite Hfirst. run.
  rewrite (lookup_insert_ne s a b) by done. rewrite Hb. run.
  rewrite Hsecond. run.
  by rewrite insert_insert_eq, Hsame.
Qed.
End inverse_compound_facts.

Lemma plus_assign_then_minus_assign_witness :
  (r <- operator_plus_assign 0 1 ;; operator_minus_assign r 1) two_counts
    = Done 0 two_counts.
Proof.
  apply (@plus_assign_then_minus_assign cycle_count Z int_addable
           int_subtractable two_counts 0 1
           (copy_construct 50%Z) (copy_construct 60%Z) 110%Z);
    [reflexivity | reflexivity | discriminate | reflexivity | reflexivity].
Defined.

Section accessor_facts.
Context {TypeName T : Type}.
Implicit Types (s : gmap nat (type TypeName T)) (a b : ref).
Implicit Types (va vb : type TypeName T).

(** X8. The mutable accessor gives access to the stored value itself: a
    value written through [get(a)] is the one read back through [get(a)], a
    second write replaces the first, writing the value [a] already holds
    changes nothing, and no other object is affected by a write to [a]. *)
Theorem get_writes_through s a va (v w : T) :
  s !! a = Some va ->
  (store a v ;;; load a) s = Done v (<[a := construct v]> s) /\
  (store a v ;;; store a w) s = store a w s /\
  store a (get va) s = Done tt s /\
  (forall b vb, b <> a -> s !! b = Some vb ->
     returned ((store a v ;;; load b) s) = returned (load b s)).
Proof.
  intros Ha. repeat split.
  - run. by rewrite set_construct.
  - run. by rewrite !set_construct, insert_insert_eq.
  - run. destruct va as [x]. cbn. by rewrite insert_id.
  - intros b vb Hne Hb. run.
    rewrite (lookup_insert_ne s a b) by done. by rewrite Hb.
Qed.
End accessor_facts.

Lemma get_writes_through_witness :
  (store 0 7%Z ;;; load 0) two_counts
    = Done 7%Z (<[0 := construct 7%Z]> two_counts) /\
  (store 0 7%Z ;;; store 0 8%Z) two_counts = store 0 8%Z two_counts /\
  store 0 50%Z two_counts = Done tt two_counts /\
  returned ((store 0 7%Z ;;; load 1) two_counts) = returned (load 1 two_counts).
Proof.
  destruct (get_writes_through two_counts 0 (copy_construct 50%Z) 7%Z 8%Z
              eq_refl) as (Hread & Htwice & Hsame & Hother).
  exact (conj Hread (conj Htwice (conj Hsame
           (Hother 1 (copy_construct 60%Z) ltac:(discriminate) eq_refl)))).
Defined.

Section stream_facts.
Context {TypeName T OStream IStream : Type}.
Context `{!Printable OStream T, !Readable IStream T}.
Implicit Types (s : gmap nat (type TypeName T)) (a b : ref).
Implicit Types (va vb : type TypeName T).

(** X10. The stream operators return the stream, so they chain:
    [os << a << b] applies the representation's [<<] to the value of [a] and
    then to that of [b], and changes no object. [is >> a] stores in [a] what
    the representation's [>>] left there and returns the stream as that
    operator left it, whatever its state; an [os << a] that follows writes
    the value just read, and no other object is changed. *)
Theorem stream_operators_chain s a b va vb
    (output : OStream) (input : IStream) :
  s !! a = Some va -> s !! b = Some vb ->
  (output' <- operator_output output a ;; operator_output output' b) s
    = Done (rep_output (rep_output output (get va)) (get vb)) s /\
  (input' <- operator_input input a ;; output' <- operator_output output a ;;
   ret (input', output')) s
    = Done (fst (rep_input input (get va)),
            rep_output output (snd (rep_input input (get va))))
           (<[a := construct (snd (rep_input input (get va)))]> s).
Proof.
  intros Ha Hb. split; [by run |].
  run. by rewrite set_construct.
Qed.
End stream_facts.

Lemma stream_operators_chain_witness :
  (output' <- operator_output [] 0 ;; operator_output output' 1) two_counts
    = Done [50; 60]%Z two_counts /\
  (input' <- operator_input ([Some 7; Some 8]%Z, false) 0 ;;
   output' <- operator_output [] 0 ;; ret (input', output')) two_counts
    = Done (([Some 8%Z], false), [7%Z]) (<[0 := construct 7%Z]> two_counts).
Proof.
  exact (stream_operators_chain two_counts 0 1
           (copy_construct 50%Z) (copy_construct 60%Z)
           [] ([Some 7; Some 8]%Z, false) eq_refl eq_refl).
Defined.

(** At the end of input the stream comes back failed and the object is as
    it was; after text that is no number it comes back failed and the object
    holds zero. *)
Example input_failure_is_forwarded :
  operator_input ([], false) 0 two_counts = Done ([], true) two_counts /\
  operator_input ([None], false) 0 two_counts
    = Done ([None], true) (<[0 := construct 0%Z]> two_counts).
Proof. split; reflexivity. Qed.
